(** * Bit-growth-tracked tree multiplication of complex fixed-point values

    A shallow embedding of [ac_complex_agilex5_dsp.cpp]: the template
    [Unroller], the width model ([OutputWidthOfMul], [BitWidthAtLayer],
    [ElementsInLayer]), the kernel of [test_mult] with its single buffer
    updated in place, and the check made by [main].

    Conventions.
    - A C++ [int] is a [Z]; the compile-time constants [InputWidth] and
      [NumInputsLog2] are section variables, instantiated with the values of
      the source (8 and 3) in [Module Sample], where every [int] expression
      of the program is shown to stay inside the 32-bit range.
    - [ac_int<W,true>] is the signed integer it denotes; a conversion into
      [W] bits is [wrap W] (two's complement wrap-around).
    - [ac_complex<ac_int<W,true>>] is [ac_complex W], a pair of such parts;
      [operator*] returns the full-precision product in the wider type
      [ac_complex (W1 + W2 + 1)], and an assignment into a narrower type
      wraps each part.
    - Undefined or aborted executions are explicit: [result] is either a
      value or a [fault]. *)

From stdpp Require Import base tactics option list list_numbers numbers.
From Stdlib Require Import ZArith Lia.

Local Open Scope Z_scope.

(** ** Faults and the error monad *)

Inductive fault : Set :=
| AssertionFailed   (* assert(...) did not hold: the process aborts *)
| OutOfBounds       (* an array or accessor is indexed outside its extent *)
| DepthExceeded.    (* template recursion deeper than the compiler allows *)

Inductive result (A : Type) : Type :=
| Ok (a : A)
| Fault (f : fault).
Arguments Ok {A} a.
Arguments Fault {A} f.

Definition bind {A B} (m : result A) (k : A → result B) : result B :=
  match m with
  | Ok a => k a
  | Fault f => Fault f
  end.

Notation "'do' x <- m ; k" := (bind m (fun x => k))
  (at level 10, x name, m at level 100, k at level 200).

(** A counted loop [for (int i = lo; i < hi; i++) body] runs [body] over the
    indices [lo, lo+1, ..., hi-1]; [foldM] threads the loop state. *)
Fixpoint foldM {S : Type} (body : Z → S → result S) (idx : list Z) (st : S)
  : result S :=
  match idx with
  | [] => Ok st
  | i :: idx' => do st' <- body i st; foldM body idx' st'
  end.

Definition for_range {S : Type} (lo hi : Z) (body : Z → S → result S) (st : S)
  : result S :=
  foldM body (seqZ lo (hi - lo)) st.

(** Arrays indexed by an [int]. *)
Definition rd {A : Type} (buf : list A) (i : Z) : result A :=
  if 0 <=? i then
    match buf !! Z.to_nat i with
    | Some a => Ok a
    | None => Fault OutOfBounds
    end
  else Fault OutOfBounds.

Definition wr {A : Type} (buf : list A) (i : Z) (a : A) : result (list A) :=
  if (0 <=? i) && (i <? Z.of_nat (length buf))
  then Ok (<[Z.to_nat i := a]> buf)
  else Fault OutOfBounds.

(** ** The template Unroller

    [Unroller<Begin, End>::step(action)] calls [action(Begin)] and then
    [Unroller<Begin + 1, End>::step(action)]; the partial specialisation
    [Unroller<End, End>] does nothing.  The recursion is on template
    instantiations, which the compiler bounds: [depth] is that bound. *)
Module Unroller.

Fixpoint step {S : Type} (depth : nat) (Begin End : Z)
    (action : Z → S → result S) (st : S) : result S :=
  match depth with
  | O => Fault DepthExceeded
  | Datatypes.S d =>
      if Begin =? End then Ok st
      else do st' <- action Begin st; step d (Begin + 1) End action st'
  end.

(** The action that only records the index it is called with. *)
Definition record_index (i : Z) (calls : list Z) : result (list Z) :=
  Ok (calls ++ [i]).

End Unroller.

(** ** Two's complement parts *)

Definition wrap (W z : Z) : Z := (z + 2 ^ (W - 1)) mod 2 ^ W - 2 ^ (W - 1).

Definition fits (W z : Z) : Prop := - 2 ^ (W - 1) ≤ z < 2 ^ (W - 1).

Definition fitsb (W z : Z) : bool :=
  (- 2 ^ (W - 1) <=? z) && (z <? 2 ^ (W - 1)).

(** ** ac_complex *)

Record ac_complex (W : Z) : Set := Cplx { real : Z; imag : Z }.
Arguments Cplx W real imag : clear implicits.
Arguments real {W} _.
Arguments imag {W} _.

(** The mathematical value of a complex fixed-point number, a Gaussian
    integer. *)
Definition value {W : Z} (c : ac_complex W) : Z * Z := (real c, imag c).

(** Full-precision complex arithmetic on Gaussian integers. *)
Definition cmul (a b : Z * Z) : Z * Z :=
  (a.1 * b.1 - a.2 * b.2, a.1 * b.2 + a.2 * b.1).

Definition cone : Z * Z := (1, 0).

Definition cprod (l : list (Z * Z)) : Z * Z := foldr cmul cone l.

Definition cwrap (W : Z) (a : Z * Z) : Z * Z := (wrap W a.1, wrap W a.2).

Definition cfits (W : Z) (a : Z * Z) : Prop := fits W a.1 ∧ fits W a.2.

Definition cfitsb (W : Z) (a : Z * Z) : bool := fitsb W a.1 && fitsb W a.2.

(** The constructor [ac_complex<ac_int<W,true>>(r, i)] from two [int]s. *)
Definition make (W : Z) (r i : Z) : ac_complex W := Cplx W (wrap W r) (wrap W i).

(** [operator*]: the result type holds the product without loss. *)
Definition mul {W1 W2 : Z} (a : ac_complex W1) (b : ac_complex W2)
  : ac_complex (W1 + W2 + 1) :=
  Cplx (W1 + W2 + 1)
    (real a * real b - imag a * imag b)
    (real a * imag b + imag a * real b).

(** Conversion on assignment or copy construction into parts of [W'] bits. *)
Definition convert {W : Z} (W' : Z) (c : ac_complex W) : ac_complex W' :=
  Cplx W' (wrap W' (real c)) (wrap W' (imag c)).

(** [operator!=] on two values of one type. *)
Definition neq {W : Z} (a b : ac_complex W) : bool :=
  negb ((real a =? real b) && (imag a =? imag b)).

(** ** The design, for compile-time constants InputWidth and NumInputsLog2 *)

Section Widths.

Variable InputWidth : Z.
Variable NumInputsLog2 : Z.

Definition NumInputs : Z := Z.shiftl 1 NumInputsLog2.

Definition OutputWidthOfMul (inputWidth : Z) : Z := inputWidth * 2 + 1.

Definition BitWidthAtLayer (layer : Z) : Z :=
  (InputWidth + 1) * layer + InputWidth.

Definition ElementsInLayer (layer : Z) : Z :=
  NumInputs ÷ Z.shiftl 1 layer.

Definition OutputWidth : Z := BitWidthAtLayer NumInputsLog2.

End Widths.

(** The type aliases [InputT], [OutputT] and [LayerT<L>]. *)
Abbreviation InputT InputWidth := (ac_complex InputWidth).
Abbreviation OutputT InputWidth NumInputsLog2 :=
  (ac_complex (OutputWidth InputWidth NumInputsLog2)).
Abbreviation LayerT InputWidth L := (ac_complex (BitWidthAtLayer InputWidth L)).

Section Design.

Variable InputWidth : Z.
Variable NumInputsLog2 : Z.

Local Abbreviation InputT := (InputT InputWidth).
Local Abbreviation OutputT := (OutputT InputWidth NumInputsLog2).
Local Abbreviation OutputWidth := (OutputWidth InputWidth NumInputsLog2).
Local Abbreviation ElementsInLayer := (ElementsInLayer NumInputsLog2).
Local Abbreviation NumInputs := (NumInputs NumInputsLog2).

(** The statement [prevBuffer[i] = prevBuffer[2*i]*prevBuffer[2*i+1]]:
    both operands are read, multiplied in full precision, and the product
    is converted into the element type of the buffer. *)
Definition pair_step (i : Z) (prevBuffer : list OutputT)
  : result (list OutputT) :=
  do a <- rd prevBuffer (2 * i);
  do b <- rd prevBuffer (2 * i + 1);
  wr prevBuffer i (convert OutputWidth (mul a b)).

(** The lambda given to the Unroller: one layer of the tree. *)
Definition layer_action (l : Z) (prevBuffer : list OutputT)
  : result (list OutputT) :=
  let layerElts := ElementsInLayer l in
  let layerPairs := layerElts ÷ 2 in
  for_range 0 layerPairs pair_step prevBuffer.

(** The copy loop [prevBuffer[i] = x[i]]. *)
Definition copy_step (x : list InputT) (i : Z) (prevBuffer : list OutputT)
  : result (list OutputT) :=
  do xi <- rd x i;
  wr prevBuffer i (convert OutputWidth xi).

(** The body of the single task.  [OutputT prevBuffer[NumInputs]] starts
    with unspecified contents, here zeros; the copy loop overwrites every
    element. *)
Definition kernel (depth : nat) (x : list InputT) : result OutputT :=
  let prevBuffer := replicate (Z.to_nat NumInputs) (Cplx OutputWidth 0 0) in
  do prevBuffer <- for_range 0 NumInputs (copy_step x) prevBuffer;
  do prevBuffer <-
    Unroller.step depth 0 NumInputsLog2 layer_action prevBuffer;
  rd prevBuffer 0.

(** [test_mult(Queue, in, out)]: the value left in [out].  The queue runs
    the kernel once on a buffer holding the elements of [in]. *)
Definition test_mult (depth : nat) (in_ : list InputT) (out : OutputT)
  : result OutputT :=
  if negb (Z.of_nat (length in_) =? NumInputs) then Fault AssertionFailed
  else kernel depth in_.

(** [check_result(expected, found, name)], without its printing. *)
Definition check_result (expected found : OutputT) : bool :=
  if neq expected found then false else true.

End Design.

(** ** The reduction as a tree of fresh arrays

    The formulation of the design document, to be compared with the single
    buffer of [kernel]: layer 0 is a copy of the inputs, and each next layer
    is a new array holding the products of adjacent pairs of the previous
    one; the result is the only element of the last layer. *)

#[global] Instance ac_complex_inhabited (W : Z) : Inhabited (ac_complex W) :=
  populate (Cplx W 0 0).

(** [products_of mult w pairs] is the array whose element [i] is
    [w[2i] * w[2i+1]], for [i] in [[0, pairs)]. *)
Definition products_of {A : Type} `{Inhabited A} (mult : A → A → A)
    (w : list A) (pairs : nat) : list A :=
  (λ i : nat, mult (w !!! (2 * i)%nat) (w !!! (2 * i + 1)%nat)) <$> seq 0 pairs.

Section Tree.

Variable InputWidth : Z.
Variable NumInputsLog2 : Z.

(** The product as [pair_step] stores it: computed in full precision,
    then converted into [OutputT]. *)
Definition mul_assign (a b : OutputT InputWidth NumInputsLog2)
  : OutputT InputWidth NumInputsLog2 :=
  convert (OutputWidth InputWidth NumInputsLog2) (mul a b).

Definition pairs_at (layer : nat) : nat :=
  Z.to_nat (ElementsInLayer NumInputsLog2 (Z.of_nat layer) / 2).

Fixpoint WorkingArray (layer : nat) (inputs : list (InputT InputWidth))
  : list (OutputT InputWidth NumInputsLog2) :=
  match layer with
  | O => convert (OutputWidth InputWidth NumInputsLog2) <$> inputs
  | S l => products_of mul_assign (WorkingArray l inputs) (pairs_at l)
  end.

Definition ReductionResult (inputs : list (InputT InputWidth))
  : option (OutputT InputWidth NumInputsLog2) :=
  WorkingArray (Z.to_nat NumInputsLog2) inputs !! 0%nat.

(** The same tree over Gaussian integers, in full precision: the
    intermediate values of the reduction as mathematical numbers. *)
Fixpoint exact_layer (layer : nat) (inputs : list (Z * Z)) : list (Z * Z) :=
  match layer with
  | O => inputs
  | S l => products_of cmul (exact_layer l inputs) (pairs_at l)
  end.

(** No value of the tree, at any layer, overflows the parts of [OutputT],
    the type in which the kernel keeps all of them. *)
Definition no_overflow (inputs : list (InputT InputWidth)) : bool :=
  forallb
    (λ l, forallb (cfitsb (OutputWidth InputWidth NumInputsLog2))
            (exact_layer l (value <$> inputs)))
    (seq 0 (S (Z.to_nat NumInputsLog2))).

(** Every value of layer [l] fits the width computed for that layer. *)
Definition fits_layer_widths (inputs : list (InputT InputWidth)) : bool :=
  forallb
    (λ l, forallb (cfitsb (BitWidthAtLayer InputWidth (Z.of_nat l)))
            (exact_layer l (value <$> inputs)))
    (seq 0 (S (Z.to_nat NumInputsLog2))).

End Tree.

(** ** The program's constants and its test *)

Module Sample.

Definition InputWidth : Z := 8.
Definition NumInputsLog2 : Z := 3.

(** The bound the compiler puts on nested template instantiations; the
    program needs [NumInputsLog2 + 1] of them. *)
Definition template_depth : nat := 1024.

Definition OutputWidth : Z := OutputWidth InputWidth NumInputsLog2.
Abbreviation InputT := (ac_complex InputWidth).
Abbreviation OutputT := (ac_complex OutputWidth).

(** The vector [in] built by [main]. *)
Definition main_in : list InputT :=
  [ make InputWidth 10 20;
    make InputWidth 5 10;
    make InputWidth (-20) 20;
    make InputWidth 20 4;
    make InputWidth 24 3;
    make InputWidth 4 3;
    make InputWidth 56 2;
    make InputWidth 34 24 ].

Definition main_expected : OutputT := make OutputWidth 1313 2016.

(** The exit status of [main] when the device is available: [res] starts
    as zero, [test_mult] fills it, and a mismatch with [expected] makes
    [main] return -1. *)
Definition main : result Z :=
  let res : OutputT := make OutputWidth 0 0 in
  do res <- test_mult InputWidth NumInputsLog2 template_depth main_in res;
  if negb (check_result InputWidth NumInputsLog2 main_expected res)
  then Ok (-1)
  else Ok 0.

(** Inputs with both parts at the most negative 8-bit value. *)
Definition extreme_in : list InputT :=
  replicate 8 (make InputWidth (-128) (-128)).

(** Eight inputs small enough for every value of the tree to fit. *)
Definition small_in : list InputT :=
  [ make InputWidth 1 2;
    make InputWidth 3 (-1);
    make InputWidth 0 1;
    make InputWidth 2 2;
    make InputWidth 1 1;
    make InputWidth (-1) 3;
    make InputWidth 2 0;
    make InputWidth 1 (-1) ].

(** The range of a 32-bit [int]. *)
Definition in_int (z : Z) : bool := (- 2 ^ 31 <=? z) && (z <? 2 ^ 31).

End Sample.

(** ** Arithmetic of two's complement wrap-around *)

Section Wrap.

Variable W : Z.
Hypothesis W_pos : 1 ≤ W.

Lemma pow2_half : 2 ^ W = 2 * 2 ^ (W - 1).
Proof using W_pos.
  replace W with (Z.succ (W - 1)) at 1 by lia.
  rewrite Z.pow_succ_r by lia. reflexivity.
Qed.

Lemma pow2_half_pos : 0 < 2 ^ (W - 1).
Proof using W_pos. apply Z.pow_pos_nonneg; lia. Qed.

Lemma wrap_fits z : fits W (wrap W z).
Proof using W_pos.
  unfold fits, wrap.
  pose proof pow2_half. pose proof pow2_half_pos.
  pose proof (Z.mod_pos_bound (z + 2 ^ (W - 1)) (2 ^ W)). lia.
Qed.

Lemma wrap_id z : fits W z → wrap W z = z.
Proof using W_pos.
  unfold fits, wrap. intros Hz.
  pose proof pow2_half. rewrite Z.mod_small by lia. lia.
Qed.

Lemma wrap_eqm z : wrap W z mod 2 ^ W = z mod 2 ^ W.
Proof.
  unfold wrap. rewrite Zminus_mod_idemp_l. f_equal. lia.
Qed.

Lemma wrap_congr a b : a mod 2 ^ W = b mod 2 ^ W → wrap W a = wrap W b.
Proof.
  unfold wrap. intros Hab.
  rewrite <- (Zplus_mod_idemp_l a), <- (Zplus_mod_idemp_l b), Hab.
  reflexivity.
Qed.

Lemma wrap_idem z : wrap W (wrap W z) = wrap W z.
Proof. apply wrap_congr, wrap_eqm. Qed.

Lemma fitsb_fits z : fitsb W z = true ↔ fits W z.
Proof. unfold fitsb, fits. rewrite andb_true_iff. lia. Qed.

Lemma cfitsb_cfits a : cfitsb W a = true ↔ cfits W a.
Proof.
  unfold cfitsb, cfits. rewrite andb_true_iff, !fitsb_fits. tauto.
Qed.

Lemma cwrap_idem a : cwrap W (cwrap W a) = cwrap W a.
Proof. unfold cwrap. simpl. rewrite !wrap_idem. reflexivity. Qed.

(** Wrapping is compatible with the complex product: the parts of a
    product only depend on the parts of the factors modulo [2 ^ W]. *)
Lemma cwrap_cmul a b :
  cwrap W (cmul (cwrap W a) (cwrap W b)) = cwrap W (cmul a b).
Proof.
  destruct a as [ar ai], b as [br bi]. unfold cwrap, cmul. simpl.
  f_equal; apply wrap_congr.
  - rewrite Zminus_mod, (Zmult_mod (wrap W ar)), (Zmult_mod (wrap W ai)).
    rewrite !wrap_eqm.
    rewrite <- (Zmult_mod ar), <- (Zmult_mod ai), <- Zminus_mod.
    reflexivity.
  - rewrite Zplus_mod, (Zmult_mod (wrap W ar)), (Zmult_mod (wrap W ai)).
    rewrite !wrap_eqm.
    rewrite <- (Zmult_mod ar), <- (Zmult_mod ai), <- Zplus_mod.
    reflexivity.
Qed.

End Wrap.

(** ** Gaussian integers form a monoid under [cmul] *)

Lemma cmul_assoc a b c : cmul (cmul a b) c = cmul a (cmul b c).
Proof.
  destruct a, b, c. unfold cmul. simpl. f_equal; ring.
Qed.

Lemma cmul_one_r a : cmul a cone = a.
Proof. destruct a. unfold cmul, cone. simpl. f_equal; ring. Qed.

Lemma cmul_one_l a : cmul cone a = a.
Proof. destruct a. unfold cmul, cone. simpl. f_equal; ring. Qed.

Lemma cprod_app l1 l2 : cprod (l1 ++ l2) = cmul (cprod l1) (cprod l2).
Proof.
  induction l1 as [|a l1 IH]; simpl.
  - symmetry. apply cmul_one_l.
  - unfold cprod in *. simpl. rewrite IH. symmetry. apply cmul_assoc.
Qed.

(** The type returned by [operator*] is wide enough: the product of two
    numbers with [w]-bit parts has parts of [OutputWidthOfMul w] bits. *)
Lemma mul_fits w (a b : Z * Z) :
  1 ≤ w → cfits w a → cfits w b → cfits (OutputWidthOfMul w) (cmul a b).
Proof.
  intros Hw [Ha1 Ha2] [Hb1 Hb2].
  destruct a as [ar ai], b as [br bi]. unfold cfits, fits, cmul in *.
  simpl in *. unfold OutputWidthOfMul.
  replace (w * 2 + 1 - 1) with ((w - 1) + (w - 1) + 2) by lia.
  rewrite !Z.pow_add_r by lia.
  pose proof (pow2_half_pos w Hw) as Hp.
  set (p := 2 ^ (w - 1)) in *. change (2 ^ 2) with 4.
  assert (Hm : ∀ x y, - p ≤ x < p → - p ≤ y < p → - (p * p) ≤ x * y ≤ p * p)
    by (intros; nia).
  pose proof (Hm ar br Ha1 Hb1). pose proof (Hm ai bi Ha2 Hb2).
  pose proof (Hm ar bi Ha1 Hb2). pose proof (Hm ai br Ha2 Hb1).
  assert (0 < p * p) by nia. lia.
Qed.

(** ** Width model *)

Section WidthModel.

Variable InputWidth : Z.
Variable NumInputsLog2 : Z.
Hypothesis K_nonneg : 0 ≤ NumInputsLog2.

Lemma NumInputs_pow : NumInputs NumInputsLog2 = 2 ^ NumInputsLog2.
Proof. unfold NumInputs. apply Z.shiftl_1_l. Qed.

Lemma ElementsInLayer_pow layer :
  0 ≤ layer ≤ NumInputsLog2 →
  ElementsInLayer NumInputsLog2 layer = 2 ^ (NumInputsLog2 - layer).
Proof using K_nonneg.
  intros Hl. unfold ElementsInLayer.
  rewrite NumInputs_pow, Z.shiftl_1_l.
  assert (0 < 2 ^ layer) by (apply Z.pow_pos_nonneg; lia).
  rewrite Z.quot_div_nonneg by (try apply Z.pow_nonneg; lia).
  replace NumInputsLog2 with ((NumInputsLog2 - layer) + layer) at 1 by lia.
  rewrite Z.pow_add_r by lia. apply Z.div_mul. lia.
Qed.

Lemma BitWidthAtLayer_step layer :
  BitWidthAtLayer InputWidth (layer + 1)
  = BitWidthAtLayer InputWidth layer + InputWidth + 1.
Proof. unfold BitWidthAtLayer. ring. Qed.

(** The closed form agrees with the rule "width x gives width 2x+1" at
    the first layer only. *)
Lemma BitWidthAtLayer_recurrence_iff layer :
  0 ≤ InputWidth →
  BitWidthAtLayer InputWidth (layer + 1)
    = OutputWidthOfMul (BitWidthAtLayer InputWidth layer)
  ↔ layer = 0.
Proof. unfold BitWidthAtLayer, OutputWidthOfMul. intros Hw. split; nia. Qed.

End WidthModel.

(** ** Loops, arrays and the Unroller *)

Lemma bind_Ok {A B} (a : A) (k : A → result B) : bind (Ok a) k = k a.
Proof. reflexivity. Qed.

Lemma foldM_app {S} (body : Z → S → result S) l1 l2 st :
  foldM body (l1 ++ l2) st = do st' <- foldM body l1 st; foldM body l2 st'.
Proof.
  revert st. induction l1 as [|i l1 IH]; intros st; simpl; [reflexivity|].
  destruct (body i st) as [st'|f]; simpl; [apply IH | reflexivity].
Qed.

Lemma foldM_record_index idx calls :
  foldM Unroller.record_index idx calls = Ok (calls ++ idx).
Proof.
  revert calls. induction idx as [|i idx IH]; intros calls; simpl.
  - rewrite app_nil_r. reflexivity.
  - rewrite IH, <- app_assoc. reflexivity.
Qed.

Lemma rd_lookup {A} (buf : list A) (n : nat) (a : A) :
  buf !! n = Some a → rd buf (Z.of_nat n) = Ok a.
Proof.
  intros Hn. unfold rd.
  destruct (Z.leb_spec 0 (Z.of_nat n)); [|lia].
  rewrite Nat2Z.id, Hn. reflexivity.
Qed.

Lemma wr_lt {A} (buf : list A) (n : nat) (a : A) :
  (n < length buf)%nat → wr buf (Z.of_nat n) a = Ok (<[n := a]> buf).
Proof.
  intros Hn. unfold wr.
  destruct (Z.leb_spec 0 (Z.of_nat n)); [|lia].
  destruct (Z.ltb_spec (Z.of_nat n) (Z.of_nat (length buf))); [|lia].
  simpl. rewrite Nat2Z.id. reflexivity.
Qed.

(** With enough instantiation depth, the Unroller over a range that is not
    reversed is the counted loop over that range. *)
Lemma Unroller_step_foldM {S} depth Begin End (action : Z → S → result S) st :
  Begin ≤ End → (Z.to_nat (End - Begin) < depth)%nat →
  Unroller.step depth Begin End action st
  = foldM action (seqZ Begin (End - Begin)) st.
Proof.
  revert Begin st.
  induction depth as [|d IH]; intros Begin st Hle Hd; [lia|]. simpl.
  destruct (Z.eqb_spec Begin End) as [->|Hne].
  - rewrite Z.sub_diag. reflexivity.
  - rewrite seqZ_cons by lia. simpl.
    destruct (action Begin st) as [st'|f]; simpl; [|reflexivity].
    rewrite IH by lia. do 2 f_equal; lia.
Qed.

(** Over a reversed range the specialisation [Unroller<End, End>] is never
    reached: no depth lets the expansion finish. *)
Lemma Unroller_step_reversed {S} depth Begin End
    (action : Z → S → result S) st r :
  End < Begin → Unroller.step depth Begin End action st ≠ Ok r.
Proof.
  revert Begin st.
  induction depth as [|d IH]; intros Begin st Hlt; simpl; [discriminate|].
  destruct (Z.eqb_spec Begin End) as [->|Hne]; [lia|].
  destruct (action Begin st) as [st'|f]; simpl; [|discriminate].
  apply IH. lia.
Qed.

(** ** Arrays of adjacent products *)

Section ProductsOf.

Context {A : Type} `{Inhabited A} (mult : A → A → A).

Lemma length_products_of (w : list A) pairs :
  length (products_of mult w pairs) = pairs.
Proof. unfold products_of. rewrite length_fmap, length_seq. reflexivity. Qed.

Lemma products_of_S (w : list A) pairs :
  products_of mult w (S pairs)
  = products_of mult w pairs
    ++ [mult (w !!! (2 * pairs)%nat) (w !!! (2 * pairs + 1)%nat)].
Proof. unfold products_of. rewrite seq_S, fmap_app. reflexivity. Qed.

(** Only the first [2 * pairs] elements are read. *)
Lemma products_of_take (w : list A) pairs n :
  (2 * pairs ≤ n)%nat →
  products_of mult (take n w) pairs = products_of mult w pairs.
Proof.
  intros Hn. induction pairs as [|p IH]; [reflexivity|].
  rewrite !products_of_S, IH by lia.
  rewrite !lookup_total_take.
  repeat case_decide; try lia. reflexivity.
Qed.

End ProductsOf.

(** ** The loops of the kernel *)

Section Kernel.

Variable InputWidth : Z.
Variable NumInputsLog2 : Z.
Hypothesis K_nonneg : 0 ≤ NumInputsLog2.

Local Abbreviation OW := (OutputWidth InputWidth NumInputsLog2).
Local Abbreviation OutT := (OutputT InputWidth NumInputsLog2).
Local Abbreviation InT := (InputT InputWidth).

(** The in-place loop over the pairs of one layer.  After [pairs]
    iterations the buffer holds the products of the pairs of the buffer the
    loop started from, followed by the elements of that buffer from index
    [pairs] on: iteration [i] writes index [i] and reads the indices [2i]
    and [2i+1], which no earlier iteration has written. *)
Lemma pair_loop_in_place (prevBuffer : list OutT) (pairs : nat) :
  (2 * pairs ≤ length prevBuffer)%nat →
  for_range 0 (Z.of_nat pairs) (pair_step InputWidth NumInputsLog2) prevBuffer
  = Ok (products_of (mul_assign InputWidth NumInputsLog2) prevBuffer pairs
        ++ drop pairs prevBuffer).
Proof.
  unfold for_range. rewrite Z.sub_0_r.
  induction pairs as [|p IH]; intros Hlen.
  - simpl. rewrite drop_0. reflexivity.
  - rewrite seqZ_S, foldM_app, IH by lia.
    rewrite bind_Ok, Z.add_0_l. cbn [foldM].
    set (done := products_of _ prevBuffer p).
    assert (Hdone : length done = p) by apply length_products_of.
    destruct (lookup_lt_is_Some_2 prevBuffer (2 * p)%nat) as [a Ha]; [lia|].
    destruct (lookup_lt_is_Some_2 prevBuffer (2 * p + 1)%nat) as [b Hb]; [lia|].
    destruct (lookup_lt_is_Some_2 prevBuffer p) as [c Hc]; [lia|].
    unfold pair_step.
    replace (2 * Z.of_nat p) with (Z.of_nat (2 * p)) by lia.
    replace (Z.of_nat (2 * p) + 1) with (Z.of_nat (2 * p + 1)) by lia.
    rewrite (rd_lookup _ (2 * p)%nat a); cycle 1.
    { rewrite lookup_app_r by lia. rewrite lookup_drop, <- Ha. f_equal. lia. }
    rewrite (rd_lookup _ (2 * p + 1)%nat b); cycle 1.
    { rewrite lookup_app_r by lia. rewrite lookup_drop, <- Hb. f_equal. lia. }
    rewrite !bind_Ok, wr_lt; cycle 1.
    { rewrite length_app, length_drop. lia. }
    rewrite bind_Ok. f_equal. rewrite products_of_S.
    rewrite (list_lookup_total_correct _ _ _ Ha).
    rewrite (list_lookup_total_correct _ _ _ Hb).
    rewrite <- app_assoc. fold done. cbn [app].
    replace p with (length done + 0)%nat at 1 by lia.
    rewrite insert_app_r. f_equal.
    rewrite (drop_S _ _ _ Hc). reflexivity.
Qed.

(** The copy loop fills the buffer with the converted inputs, in order. *)
Lemma copy_loop (x : list InT) (prevBuffer : list OutT) (n : nat) :
  (n ≤ length x)%nat → (n ≤ length prevBuffer)%nat →
  for_range 0 (Z.of_nat n) (copy_step InputWidth NumInputsLog2 x) prevBuffer
  = Ok ((convert OW <$> take n x) ++ drop n prevBuffer).
Proof.
  unfold for_range. rewrite Z.sub_0_r.
  induction n as [|n IH]; intros Hx Hb.
  - cbn [foldM seqZ]. rewrite take_0, drop_0. reflexivity.
  - rewrite seqZ_S, foldM_app, IH by lia.
    rewrite bind_Ok, Z.add_0_l. cbn [foldM].
    destruct (lookup_lt_is_Some_2 x n) as [xn Hxn]; [lia|].
    destruct (lookup_lt_is_Some_2 prevBuffer n) as [c Hc]; [lia|].
    unfold copy_step. rewrite (rd_lookup _ _ _ Hxn), bind_Ok.
    assert (Hdone : length (convert OW <$> take n x) = n)
      by (rewrite length_fmap, length_take; lia).
    rewrite wr_lt by (rewrite length_app, length_drop; lia).
    rewrite bind_Ok. f_equal.
    rewrite (take_S_r _ _ _ Hxn), fmap_app, <- app_assoc. cbn [fmap list_fmap app].
    replace n with (length (convert OW <$> take n x) + 0)%nat at 1 by lia.
    rewrite insert_app_r. f_equal.
    rewrite (drop_S _ _ _ Hc). reflexivity.
Qed.

Lemma pow2_pos m : 0 ≤ m → 0 < 2 ^ m.
Proof. intros. apply Z.pow_pos_nonneg; lia. Qed.

Lemma pow2_double m : 0 < m → 2 ^ m = 2 * 2 ^ (m - 1).
Proof. intros. apply pow2_half. lia. Qed.

Lemma pairs_at_pow (n : nat) :
  Z.of_nat n < NumInputsLog2 →
  pairs_at NumInputsLog2 n = Z.to_nat (2 ^ (NumInputsLog2 - Z.of_nat n - 1)).
Proof using K_nonneg.
  intros Hn. unfold pairs_at.
  rewrite ElementsInLayer_pow by lia.
  rewrite (pow2_double (NumInputsLog2 - Z.of_nat n)) by lia.
  rewrite Z.mul_comm, Z.div_mul by lia. reflexivity.
Qed.

Lemma layer_pairs_pow (n : nat) :
  Z.of_nat n < NumInputsLog2 →
  ElementsInLayer NumInputsLog2 (Z.of_nat n) ÷ 2
  = 2 ^ (NumInputsLog2 - Z.of_nat n - 1).
Proof using K_nonneg.
  intros Hn. rewrite ElementsInLayer_pow by lia.
  rewrite (pow2_double (NumInputsLog2 - Z.of_nat n)) by lia.
  pose proof (pow2_pos (NumInputsLog2 - Z.of_nat n - 1)).
  rewrite Z.quot_div_nonneg by lia.
  rewrite Z.mul_comm, Z.div_mul by lia. reflexivity.
Qed.

(** After the Unroller has run [n] layers on the single buffer, the first
    [NumInputs / 2^n] elements of the buffer are the array of layer [n]. *)
Lemma layers_in_place (x : list InT) (n : nat) :
  Z.of_nat (length x) = NumInputs NumInputsLog2 →
  Z.of_nat n ≤ NumInputsLog2 →
  ∃ prevBuffer,
    foldM (layer_action InputWidth NumInputsLog2) (seqZ 0 (Z.of_nat n))
      (convert OW <$> x) = Ok prevBuffer
    ∧ length prevBuffer = length x
    ∧ take (Z.to_nat (2 ^ (NumInputsLog2 - Z.of_nat n))) prevBuffer
      = WorkingArray InputWidth NumInputsLog2 n x.
Proof using K_nonneg.
  rewrite NumInputs_pow. intros Hx.
  induction n as [|n IH]; intros Hn.
  - exists (convert OW <$> x). split; [reflexivity|].
    split; [apply length_fmap|].
    rewrite Z.sub_0_r, <- Hx, Nat2Z.id. cbn [WorkingArray].
    apply take_ge. rewrite length_fmap. lia.
  - destruct IH as (buf & Hrun & Hlen & Htake); [lia|].
    rewrite seqZ_S, foldM_app, Hrun, bind_Ok, Z.add_0_l. cbn [foldM].
    unfold layer_action. rewrite layer_pairs_pow by lia.
    set (m := NumInputsLog2 - Z.of_nat n - 1) in *.
    pose proof (pow2_pos m ltac:(lia)) as Hp.
    assert (Hm : 2 ^ (NumInputsLog2 - Z.of_nat n) = 2 * 2 ^ m).
    { rewrite pow2_double by lia. reflexivity. }
    assert (Hle : 2 ^ (NumInputsLog2 - Z.of_nat n) ≤ 2 ^ NumInputsLog2)
      by (apply Z.pow_le_mono_r; lia).
    rewrite <- (Z2Nat.id (2 ^ m)) by lia.
    rewrite pair_loop_in_place by lia. rewrite bind_Ok.
    eexists. split; [reflexivity|]. split.
    + rewrite length_app, length_products_of, length_drop. lia.
    + replace (NumInputsLog2 - Z.of_nat (S n)) with m by lia.
      rewrite take_app_length' by (symmetry; apply length_products_of).
      cbn [WorkingArray]. rewrite <- Htake, pairs_at_pow by lia.
      fold m. symmetry. apply products_of_take. lia.
Qed.

(** The kernel returns the only element of the last layer. *)
Lemma kernel_two_array (depth : nat) (x : list InT) :
  Z.of_nat (length x) = NumInputs NumInputsLog2 →
  (Z.to_nat NumInputsLog2 < depth)%nat →
  ∃ r, kernel InputWidth NumInputsLog2 depth x = Ok r
     ∧ WorkingArray InputWidth NumInputsLog2 (Z.to_nat NumInputsLog2) x = [r].
Proof using K_nonneg.
  intros Hx Hd.
  destruct (layers_in_place x (Z.to_nat NumInputsLog2) Hx)
    as (buf & Hrun & Hlen & Htake); [lia|].
  rewrite Z2Nat.id in Hrun, Htake by lia. rewrite Z.sub_diag in Htake.
  pose proof (pow2_pos NumInputsLog2 K_nonneg).
  pose proof NumInputs_pow NumInputsLog2 as HN.
  destruct buf as [|r buf]; [simpl in Hlen; lia|].
  exists r. split; [|rewrite <- Htake; reflexivity].
  unfold kernel. rewrite <- Hx at 1.
  rewrite copy_loop; [|lia|rewrite length_replicate; lia].
  rewrite bind_Ok, firstn_all, drop_ge, app_nil_r
    by (rewrite length_replicate; lia).
  rewrite Unroller_step_foldM by lia. rewrite Z.sub_0_r, Hrun.
  reflexivity.
Qed.

End Kernel.
(** ** The tree in full precision *)

Lemma cprod_products_of (w : list (Z * Z)) (pairs : nat) :
  (2 * pairs ≤ length w)%nat →
  cprod (products_of cmul w pairs) = cprod (take (2 * pairs) w).
Proof.
  induction pairs as [|p IH]; intros Hlen; [reflexivity|].
  destruct (lookup_lt_is_Some_2 w (2 * p)%nat) as [a Ha]; [lia|].
  destruct (lookup_lt_is_Some_2 w (2 * p + 1)%nat) as [b Hb]; [lia|].
  rewrite products_of_S, cprod_app, IH by lia.
  replace (2 * S p)%nat with (S (S (2 * p))) by lia.
  assert (Hb' : w !! S (2 * p) = Some b)
    by (rewrite <- Hb; f_equal; lia).
  rewrite (take_S_r _ _ _ Hb'), (take_S_r _ _ _ Ha), <- app_assoc, cprod_app.
  rewrite (list_lookup_total_correct _ _ _ Ha).
  rewrite (list_lookup_total_correct _ _ _ Hb).
  f_equal. unfold cprod. cbn [foldr app]. rewrite !cmul_one_r. reflexivity.
Qed.

Section TreeFacts.

Variable InputWidth : Z.
Variable NumInputsLog2 : Z.
Hypothesis K_nonneg : 0 ≤ NumInputsLog2.

Local Abbreviation OW := (OutputWidth InputWidth NumInputsLog2).
Local Abbreviation OutT := (OutputT InputWidth NumInputsLog2).
Local Abbreviation InT := (InputT InputWidth).

Lemma two_pairs_at (n : nat) :
  Z.of_nat n < NumInputsLog2 →
  (2 * pairs_at NumInputsLog2 n)%nat
  = Z.to_nat (2 ^ (NumInputsLog2 - Z.of_nat n)).
Proof using K_nonneg.
  intros Hn. rewrite pairs_at_pow by lia.
  rewrite (pow2_double (NumInputsLog2 - Z.of_nat n)) by lia.
  pose proof (pow2_pos (NumInputsLog2 - Z.of_nat n - 1)). lia.
Qed.

Lemma length_exact_layer (inputs : list (Z * Z)) (n : nat) :
  Z.of_nat (length inputs) = 2 ^ NumInputsLog2 →
  Z.of_nat n ≤ NumInputsLog2 →
  length (exact_layer NumInputsLog2 n inputs)
  = Z.to_nat (2 ^ (NumInputsLog2 - Z.of_nat n)).
Proof using K_nonneg.
  intros Hlen Hn. destruct n as [|n]; cbn [exact_layer].
  - rewrite Z.sub_0_r. lia.
  - rewrite length_products_of, pairs_at_pow by lia. f_equal. f_equal. lia.
Qed.

(** Pairing adjacent elements keeps the product of the whole array. *)
Lemma cprod_exact_layer (inputs : list (Z * Z)) (n : nat) :
  Z.of_nat (length inputs) = 2 ^ NumInputsLog2 →
  Z.of_nat n ≤ NumInputsLog2 →
  cprod (exact_layer NumInputsLog2 n inputs) = cprod inputs.
Proof using K_nonneg.
  intros Hlen. induction n as [|n IH]; intros Hn; [reflexivity|].
  cbn [exact_layer].
  pose proof (length_exact_layer inputs n Hlen ltac:(lia)) as Hl.
  pose proof (two_pairs_at n ltac:(lia)) as H2.
  rewrite cprod_products_of by lia.
  rewrite take_ge by lia. apply IH. lia.
Qed.

Lemma value_mul_assign (a b : OutT) :
  value (mul_assign InputWidth NumInputsLog2 a b)
  = cwrap OW (cmul (value a) (value b)).
Proof. reflexivity. Qed.

Lemma value_products_of (w : list OutT) (e : list (Z * Z)) (pairs : nat) :
  value <$> w = cwrap OW <$> e →
  (2 * pairs ≤ length w)%nat →
  value <$> products_of (mul_assign InputWidth NumInputsLog2) w pairs
  = cwrap OW <$> products_of cmul e pairs.
Proof.
  intros Hwe. induction pairs as [|p IH]; intros Hlen; [reflexivity|].
  rewrite !products_of_S, !fmap_app, IH by lia. f_equal.
  assert (Hel : ∀ i, (i < length w)%nat →
            value (w !!! i) = cwrap OW (e !!! i)).
  { intros i Hi.
    destruct (lookup_lt_is_Some_2 w i Hi) as [a Ha].
    assert (Hv : (value <$> w) !! i = Some (value a))
      by (rewrite list_lookup_fmap, Ha; reflexivity).
    rewrite Hwe, list_lookup_fmap in Hv.
    destruct (e !! i) as [ea|] eqn:He; [|discriminate].
    rewrite (list_lookup_total_correct _ _ _ Ha).
    rewrite (list_lookup_total_correct _ _ _ He).
    simpl in Hv. congruence. }
  cbn [fmap list_fmap]. f_equal.
  rewrite value_mul_assign, !Hel by lia. apply cwrap_cmul.
Qed.

(** Each element the kernel keeps is the exact value of its node of the
    tree, wrapped into the parts of [OutputT]. *)
Lemma value_WorkingArray (x : list InT) (n : nat) :
  Z.of_nat (length x) = 2 ^ NumInputsLog2 →
  Z.of_nat n ≤ NumInputsLog2 →
  value <$> WorkingArray InputWidth NumInputsLog2 n x
  = cwrap OW <$> exact_layer NumInputsLog2 n (value <$> x).
Proof using K_nonneg.
  intros Hlen. induction n as [|n IH]; intros Hn.
  - cbn [WorkingArray exact_layer]. rewrite <- !list_fmap_compose.
    reflexivity.
  - cbn [WorkingArray exact_layer]. apply value_products_of; [apply IH; lia|].
    assert (Hl : length (WorkingArray InputWidth NumInputsLog2 n x)
                 = length (exact_layer NumInputsLog2 n (value <$> x))).
    { rewrite <- (length_fmap value), IH, length_fmap by lia. reflexivity. }
    rewrite Hl, length_exact_layer, two_pairs_at
      by (rewrite ?length_fmap; lia).
    lia.
Qed.

(** The value the kernel returns. *)
Lemma kernel_value (depth : nat) (x : list InT) :
  Z.of_nat (length x) = NumInputs NumInputsLog2 →
  (Z.to_nat NumInputsLog2 < depth)%nat →
  ∃ r, kernel InputWidth NumInputsLog2 depth x = Ok r
     ∧ value r = cwrap OW (cprod (value <$> x))
     ∧ exact_layer NumInputsLog2 (Z.to_nat NumInputsLog2) (value <$> x)
       = [cprod (value <$> x)].
Proof using K_nonneg.
  intros Hx Hd.
  destruct (kernel_two_array InputWidth NumInputsLog2 K_nonneg depth x Hx Hd)
    as (r & Hk & Hw).
  rewrite NumInputs_pow in Hx.
  assert (Hlen : Z.of_nat (length (value <$> x)) = 2 ^ NumInputsLog2)
    by (rewrite length_fmap; exact Hx).
  pose proof (value_WorkingArray x (Z.to_nat NumInputsLog2) Hx ltac:(lia))
    as Hv.
  pose proof (cprod_exact_layer _ (Z.to_nat NumInputsLog2) Hlen ltac:(lia))
    as Hc.
  pose proof (length_exact_layer _ (Z.to_nat NumInputsLog2) Hlen ltac:(lia))
    as Hl.
  rewrite Z2Nat.id, Z.sub_diag in Hl by lia.
  destruct (exact_layer NumInputsLog2 (Z.to_nat NumInputsLog2) (value <$> x))
    as [|P [|? ?]]; try discriminate Hl.
  unfold cprod in Hc at 1. cbn [foldr] in Hc. rewrite cmul_one_r in Hc.
  subst P.
  rewrite Hw in Hv. cbn [fmap list_fmap] in Hv.
  exists r. split; [exact Hk|]. split; [congruence|reflexivity].
Qed.

End TreeFacts.

(** ** The int expressions of the program do not overflow *)

Lemma Sample_int_range :
  Sample.in_int (NumInputs Sample.NumInputsLog2) = true
  ∧ forallb
      (λ l, Sample.in_int (BitWidthAtLayer Sample.InputWidth l)
            && Sample.in_int (Z.shiftl 1 l)
            && Sample.in_int (ElementsInLayer Sample.NumInputsLog2 l)
            && Sample.in_int (2 * (ElementsInLayer Sample.NumInputsLog2 l ÷ 2) + 1))
      (seqZ 0 (Sample.NumInputsLog2 + 1)) = true.
Proof. split; vm_compute; reflexivity. Qed.

(** ** Parity is kept by wrap-around *)

Lemma wrap_even W z : 1 ≤ W → Z.even (wrap W z) = Z.even z.
Proof.
  intros HW. unfold wrap.
  rewrite Z.mod_eq by (pose proof (pow2_half_pos W HW); rewrite pow2_half; lia).
  rewrite (pow2_half W HW) at 1.
  set (q := (z + 2 ^ (W - 1)) / 2 ^ W). set (h := 2 ^ (W - 1)).
  replace (z + h - 2 * h * q - h) with (z + 2 * (- (h * q))) by ring.
  apply Z.even_add_mul_2.
Qed.

Lemma wrap_id_any W z : fits W z → wrap W z = z.
Proof.
  intros Hz. destruct (Z_le_gt_dec 1 W) as [HW|HW]; [apply wrap_id; assumption|].
  exfalso. unfold fits in Hz.
  rewrite Z.pow_neg_r in Hz by lia. lia.
Qed.

Lemma cwrap_id_any W a : cfits W a → cwrap W a = a.
Proof.
  destruct a as [x y]. unfold cfits, cwrap. simpl. intros [Hx Hy].
  rewrite !wrap_id_any by assumption. reflexivity.
Qed.

Lemma test_mult_kernel InputWidth NumInputsLog2 depth
    (in_ : list (InputT InputWidth)) (out : OutputT InputWidth NumInputsLog2) :
  Z.of_nat (length in_) = NumInputs NumInputsLog2 →
  test_mult InputWidth NumInputsLog2 depth in_ out
  = kernel InputWidth NumInputsLog2 depth in_.
Proof.
  intros Hlen. unfold test_mult. rewrite Hlen, Z.eqb_refl. reflexivity.
Qed.

(** ** The claims *)

(** C1 (associative correctness).  For a batch of [NumInputs = 2^K] inputs,
    when no value of the reduction tree overflows the parts of [OutputT],
    [test_mult] returns the mathematical product of all the inputs, taken in
    order and computed in full precision. *)
Theorem associative_correctness InputWidth NumInputsLog2 depth
    (in_ : list (InputT InputWidth)) (out : OutputT InputWidth NumInputsLog2) :
  0 ≤ NumInputsLog2 →
  (Z.to_nat NumInputsLog2 < depth)%nat →
  Z.of_nat (length in_) = NumInputs NumInputsLog2 →
  no_overflow InputWidth NumInputsLog2 in_ = true →
  ∃ r, test_mult InputWidth NumInputsLog2 depth in_ out = Ok r
     ∧ value r = cprod (value <$> in_).
Proof.
  intros HK Hd Hlen Hno.
  destruct (kernel_value InputWidth NumInputsLog2 HK depth in_ Hlen Hd)
    as (r & Hk & Hv & Hlast).
  exists r. split; [rewrite test_mult_kernel; assumption|].
  rewrite Hv. apply cwrap_id_any, cfitsb_cfits.
  unfold no_overflow in Hno. rewrite forallb_forall in Hno.
  specialize (Hno (Z.to_nat NumInputsLog2)).
  rewrite Hlast in Hno. cbn [forallb] in Hno.
  rewrite andb_true_r in Hno. apply Hno.
  apply in_seq. lia.
Qed.

Lemma associative_correctness_witness :
  ∃ r, test_mult 8 3 4 Sample.small_in (make _ 0 0) = Ok r
     ∧ value r = cprod (value <$> Sample.small_in).
Proof.
  apply (associative_correctness 8 3 4 Sample.small_in (make _ 0 0)).
  - lia.
  - vm_compute. lia.
  - reflexivity.
  - vm_compute. reflexivity.
Defined.

(** C2 (no-overflow guarantee), evaluated on the program.  With all eight
    inputs at [(-128, -128)], the values of layer 2 are [(-2^30, 0)], which
    do not fit the 26 bits that [BitWidthAtLayer] computes for layer 2, and
    the exact product [(2^60, 0)] does not fit the 35 bits of [OutputT]:
    [test_mult] returns [(0, 0)]. *)
Theorem extreme_inputs_overflow :
  forallb (λ c, cfitsb Sample.InputWidth (value c)) Sample.extreme_in = true
  ∧ exact_layer Sample.NumInputsLog2 2 (value <$> Sample.extreme_in)
    = [(- 2 ^ 30, 0); (- 2 ^ 30, 0)]
  ∧ BitWidthAtLayer Sample.InputWidth 2 = 26
  ∧ cfitsb (BitWidthAtLayer Sample.InputWidth 2) (- 2 ^ 30, 0) = false
  ∧ fits_layer_widths Sample.InputWidth Sample.NumInputsLog2
      Sample.extreme_in = false
  ∧ cprod (value <$> Sample.extreme_in) = (2 ^ 60, 0)
  ∧ no_overflow Sample.InputWidth Sample.NumInputsLog2 Sample.extreme_in
    = false
  ∧ test_mult Sample.InputWidth Sample.NumInputsLog2 Sample.template_depth
      Sample.extreme_in (make Sample.OutputWidth 0 0)
    = Ok (Cplx Sample.OutputWidth 0 0).
Proof. repeat split; vm_compute; reflexivity. Qed.

(** C3 (closed form of the width recurrence), evaluated on the program.
    From layer 1 on, [BitWidthAtLayer] is smaller than the width that the
    rule "width x gives width 2x+1" asks for: layer 2 gets 26 bits where
    [OutputWidthOfMul] of layer 1 is 35, and [OutputWidth] is 35 where three
    applications of the rule to 8 give 71. *)
Theorem closed_form_misses_recurrence :
  BitWidthAtLayer Sample.InputWidth 1 = 17
  ∧ BitWidthAtLayer Sample.InputWidth (1 + 1) = 26
  ∧ OutputWidthOfMul (BitWidthAtLayer Sample.InputWidth 1) = 35
  ∧ Sample.OutputWidth = 35
  ∧ Nat.iter 3 OutputWidthOfMul Sample.InputWidth = 71.
Proof. repeat split; vm_compute; reflexivity. Qed.

(** Whatever width the parts of the output have, the real part of the
    product of the inputs of [main] is even and cannot be 1313. *)
Lemma main_expected_unreachable W :
  1 ≤ W → cwrap W (cprod (value <$> Sample.main_in)) ≠ (1313, 2016).
Proof.
  intros HW Heq.
  assert (He : Z.even (cwrap W (cprod (value <$> Sample.main_in))).1 = false)
    by (rewrite Heq; reflexivity).
  unfold cwrap in He. cbn [fst] in He. rewrite wrap_even in He by assumption.
  vm_compute in He. discriminate.
Qed.

(** C4 (the scenario of [main]), evaluated on the program.  On the inputs
    of [main], [test_mult] leaves [(6122885632, -3942432000)] in [res]: the
    exact product [(40482624000, -3942432000)] with its real part wrapped
    into 35 bits.  [check_result] against [(1313, 2016)] fails and [main]
    returns -1. *)
Theorem main_scenario_fails :
  test_mult Sample.InputWidth Sample.NumInputsLog2 Sample.template_depth
    Sample.main_in (make Sample.OutputWidth 0 0)
  = Ok (Cplx Sample.OutputWidth 6122885632 (-3942432000))
  ∧ cprod (value <$> Sample.main_in) = (40482624000, -3942432000)
  ∧ value Sample.main_expected = (1313, 2016)
  ∧ check_result Sample.InputWidth Sample.NumInputsLog2 Sample.main_expected
      (Cplx Sample.OutputWidth 6122885632 (-3942432000)) = false
  ∧ Sample.main = Ok (-1).
Proof. repeat split; vm_compute; reflexivity. Qed.

(** C5, as stated, at [Begin = 1], [End = 0]: the claim has [step] perform
    [max(0, End - Begin) = 0] invocations, but no instantiation depth lets
    [Unroller<1, 0>::step] complete at all. *)
Lemma Unroller_reversed_range_never_completes :
  ¬ ∃ (depth : nat) (calls : list Z),
      Unroller.step depth 1 0 Unroller.record_index [] = Ok calls.
Proof.
  intros (depth & calls & Hstep).
  apply (Unroller_step_reversed depth 1 0 Unroller.record_index [] calls);
    [lia | exact Hstep].
Qed.

(** C5 (Unroller coverage), amended.  For [Begin ≤ End] and enough
    instantiation depth, [Unroller<Begin, End>::step(action)] completes
    after calling [action] exactly [End - Begin] times, on the indices
    [Begin, Begin + 1, ..., End - 1] in this order (none when
    [Begin = End]); for any action it is the counted loop over them. *)
Theorem Unroller_coverage (depth : nat) (Begin End : Z) :
  Begin ≤ End →
  (Z.to_nat (End - Begin) < depth)%nat →
  ∃ calls : list Z,
    Unroller.step depth Begin End Unroller.record_index [] = Ok calls
    ∧ length calls = Z.to_nat (End - Begin)
    ∧ (∀ k : nat, (k < length calls)%nat →
         calls !! k = Some (Begin + Z.of_nat k))
    ∧ (Begin = End → calls = [])
    ∧ (∀ (S : Type) (action : Z → S → result S) (st : S),
         Unroller.step depth Begin End action st = foldM action calls st).
Proof.
  intros Hle Hd. exists (seqZ Begin (End - Begin)).
  split; [|split; [|split; [|split]]].
  - rewrite Unroller_step_foldM by assumption. apply foldM_record_index.
  - apply length_seqZ.
  - intros k Hk. rewrite length_seqZ in Hk. apply lookup_seqZ_lt. lia.
  - intros ->. rewrite Z.sub_diag. reflexivity.
  - intros S action st. apply Unroller_step_foldM; assumption.
Qed.

Lemma Unroller_coverage_witness :
  ∃ calls : list Z,
    Unroller.step 4 2 5 Unroller.record_index [] = Ok calls
    ∧ length calls = Z.to_nat (5 - 2)
    ∧ (∀ k : nat, (k < length calls)%nat → calls !! k = Some (2 + Z.of_nat k))
    ∧ (2 = 5 → calls = [])
    ∧ (∀ (S : Type) (action : Z → S → result S) (st : S),
         Unroller.step 4 2 5 action st = foldM action calls st).
Proof. apply (Unroller_coverage 4 2 5); [lia | vm_compute; lia]. Defined.

(** C6 (width monotonicity).  For every layer in [[0, K)], the width of the
    next layer is strictly greater, by exactly [InputWidth + 1]. *)
Theorem width_monotonicity (InputWidth NumInputsLog2 layer : Z) :
  0 ≤ InputWidth →
  0 ≤ layer < NumInputsLog2 →
  BitWidthAtLayer InputWidth (layer + 1) > BitWidthAtLayer InputWidth layer
  ∧ BitWidthAtLayer InputWidth (layer + 1)
    = BitWidthAtLayer InputWidth layer + InputWidth + 1.
Proof.
  intros HW Hl. rewrite BitWidthAtLayer_step. split; lia.
Qed.

Lemma width_monotonicity_witness :
  BitWidthAtLayer 8 (2 + 1) > BitWidthAtLayer 8 2
  ∧ BitWidthAtLayer 8 (2 + 1) = BitWidthAtLayer 8 2 + 8 + 1.
Proof. apply (width_monotonicity 8 3 2); lia. Defined.

(** C7 (element halving).  [ElementsInLayer layer] is [NumInputs / 2^layer],
    an exact quotient; for every layer in [[0, K)] the next layer has half
    as many elements, and layer [K] has one. *)
Theorem element_halving (NumInputsLog2 layer : Z) :
  0 ≤ layer < NumInputsLog2 →
  ElementsInLayer NumInputsLog2 layer = NumInputs NumInputsLog2 / 2 ^ layer
  ∧ ElementsInLayer NumInputsLog2 layer * 2 ^ layer = NumInputs NumInputsLog2
  ∧ ElementsInLayer NumInputsLog2 (layer + 1)
    = ElementsInLayer NumInputsLog2 layer / 2
  ∧ ElementsInLayer NumInputsLog2 NumInputsLog2 = 1.
Proof.
  intros Hl.
  rewrite !ElementsInLayer_pow, NumInputs_pow by lia.
  pose proof (pow2_pos layer ltac:(lia)) as Hp.
  assert (HN : 2 ^ NumInputsLog2 = 2 ^ (NumInputsLog2 - layer) * 2 ^ layer).
  { rewrite <- Z.pow_add_r by lia. f_equal. lia. }
  split; [|split; [|split]].
  - rewrite HN, Z.div_mul by lia. reflexivity.
  - symmetry. exact HN.
  - rewrite (pow2_double (NumInputsLog2 - layer)) by lia.
    rewrite Z.mul_comm, Z.div_mul by lia. f_equal. lia.
  - rewrite Z.sub_diag. reflexivity.
Qed.

Lemma element_halving_witness :
  ElementsInLayer 3 1 = NumInputs 3 / 2 ^ 1
  ∧ ElementsInLayer 3 1 * 2 ^ 1 = NumInputs 3
  ∧ ElementsInLayer 3 (1 + 1) = ElementsInLayer 3 1 / 2
  ∧ ElementsInLayer 3 3 = 1.
Proof. apply (element_halving 3 1). lia. Defined.

(** C8 (precondition violations).  [NumInputs] is [1 << NumInputsLog2], a
    power of two by construction, and an input vector whose length is not
    [NumInputs] fails the assertion at the head of [test_mult]: nothing is
    copied, multiplied or written to [out]. *)
Theorem precondition_rejected InputWidth NumInputsLog2 depth
    (in_ : list (InputT InputWidth)) (out : OutputT InputWidth NumInputsLog2) :
  0 ≤ NumInputsLog2 →
  Z.of_nat (length in_) ≠ NumInputs NumInputsLog2 →
  NumInputs NumInputsLog2 = 2 ^ NumInputsLog2
  ∧ test_mult InputWidth NumInputsLog2 depth in_ out = Fault AssertionFailed.
Proof.
  intros HK Hlen. split; [apply NumInputs_pow|].
  unfold test_mult.
  destruct (Z.eqb_spec (Z.of_nat (length in_)) (NumInputs NumInputsLog2));
    [contradiction | reflexivity].
Qed.

Lemma precondition_rejected_witness :
  NumInputs 3 = 2 ^ 3
  ∧ test_mult 8 3 Sample.template_depth (take 7 Sample.main_in)
      (make _ 0 0) = Fault AssertionFailed.
Proof.
  apply (precondition_rejected 8 3 Sample.template_depth
           (take 7 Sample.main_in) (make _ 0 0)).
  - lia.
  - vm_compute. discriminate.
Defined.

(** C9 (the in-place update is write-safe).  The loop of one layer, run on
    a single buffer, yields the products of the adjacent pairs of the
    buffer it started from (followed by the old elements from index
    [pairs] on), as if they had been written to a fresh array; hence
    [test_mult] returns the result of the formulation that builds a new
    [WorkingArray] per layer. *)
Theorem in_place_refines_two_array InputWidth NumInputsLog2 depth
    (in_ : list (InputT InputWidth)) (out : OutputT InputWidth NumInputsLog2) :
  0 ≤ NumInputsLog2 →
  (Z.to_nat NumInputsLog2 < depth)%nat →
  Z.of_nat (length in_) = NumInputs NumInputsLog2 →
  (∀ (prevBuffer : list (OutputT InputWidth NumInputsLog2)) (pairs : nat),
     (2 * pairs ≤ length prevBuffer)%nat →
     for_range 0 (Z.of_nat pairs) (pair_step InputWidth NumInputsLog2)
       prevBuffer
     = Ok (products_of (mul_assign InputWidth NumInputsLog2) prevBuffer pairs
           ++ drop pairs prevBuffer))
  ∧ ∃ r, test_mult InputWidth NumInputsLog2 depth in_ out = Ok r
       ∧ ReductionResult InputWidth NumInputsLog2 in_ = Some r.
Proof.
  intros HK Hd Hlen. split.
  - intros prevBuffer pairs. apply pair_loop_in_place.
  - destruct (kernel_two_array InputWidth NumInputsLog2 HK depth in_ Hlen Hd)
      as (r & Hk & Hw).
    exists r. split; [rewrite test_mult_kernel; assumption|].
    unfold ReductionResult. rewrite Hw. reflexivity.
Qed.

Lemma in_place_refines_two_array_witness :
  (∀ (prevBuffer : list (OutputT 8 3)) (pairs : nat),
     (2 * pairs ≤ length prevBuffer)%nat →
     for_range 0 (Z.of_nat pairs) (pair_step 8 3) prevBuffer
     = Ok (products_of (mul_assign 8 3) prevBuffer pairs
           ++ drop pairs prevBuffer))
  ∧ ∃ r, test_mult 8 3 4 Sample.main_in (make _ 0 0) = Ok r
       ∧ ReductionResult 8 3 Sample.main_in = Some r.
Proof.
  apply (in_place_refines_two_array 8 3 4 Sample.main_in (make _ 0 0)).
  - lia.
  - vm_compute. lia.
  - reflexivity.
Defined.

(** C10 (everything is kept in OutputT).  After any number of layers, the
    live elements of the buffer are the exact values of that layer of the
    tree wrapped into [OutputWidth] bits, whatever the layer; and the parts
    of the value that [test_mult] returns are the parts of the exact
    product of the inputs, wrapped into [OutputWidth]-bit two's
    complement. *)
Theorem result_is_wrapped_product InputWidth NumInputsLog2 depth
    (in_ : list (InputT InputWidth)) (out : OutputT InputWidth NumInputsLog2) :
  0 ≤ NumInputsLog2 →
  (Z.to_nat NumInputsLog2 < depth)%nat →
  Z.of_nat (length in_) = NumInputs NumInputsLog2 →
  (∀ n : nat, Z.of_nat n ≤ NumInputsLog2 →
     ∃ prevBuffer : list (OutputT InputWidth NumInputsLog2),
       foldM (layer_action InputWidth NumInputsLog2) (seqZ 0 (Z.of_nat n))
         (convert (OutputWidth InputWidth NumInputsLog2) <$> in_)
       = Ok prevBuffer
       ∧ value <$> take (Z.to_nat (ElementsInLayer NumInputsLog2 (Z.of_nat n)))
                     prevBuffer
         = cwrap (OutputWidth InputWidth NumInputsLog2)
             <$> exact_layer NumInputsLog2 n (value <$> in_))
  ∧ ∃ r, test_mult InputWidth NumInputsLog2 depth in_ out = Ok r
       ∧ real r = wrap (OutputWidth InputWidth NumInputsLog2)
                    (cprod (value <$> in_)).1
       ∧ imag r = wrap (OutputWidth InputWidth NumInputsLog2)
                    (cprod (value <$> in_)).2.
Proof.
  intros HK Hd Hlen. split.
  - intros n Hn.
    destruct (layers_in_place InputWidth NumInputsLog2 HK in_ n Hlen Hn)
      as (buf & Hrun & _ & Htake).
    exists buf. split; [exact Hrun|].
    rewrite ElementsInLayer_pow, Htake by lia.
    apply value_WorkingArray; [assumption| |assumption].
    rewrite <- NumInputs_pow. exact Hlen.
  - destruct (kernel_value InputWidth NumInputsLog2 HK depth in_ Hlen Hd)
      as (r & Hk & Hv & _).
    exists r. split; [rewrite test_mult_kernel; assumption|].
    unfold value, cwrap in Hv. injection Hv as Hre Him. split; assumption.
Qed.

Lemma result_is_wrapped_product_witness :
  (∀ n : nat, Z.of_nat n ≤ 3 →
     ∃ prevBuffer : list (OutputT 8 3),
       foldM (layer_action 8 3) (seqZ 0 (Z.of_nat n))
         (convert (OutputWidth 8 3) <$> Sample.main_in)
       = Ok prevBuffer
       ∧ value <$> take (Z.to_nat (ElementsInLayer 3 (Z.of_nat n))) prevBuffer
         = cwrap (OutputWidth 8 3)
             <$> exact_layer 3 n (value <$> Sample.main_in))
  ∧ ∃ r, test_mult 8 3 4 Sample.main_in (make _ 0 0) = Ok r
       ∧ real r = wrap (OutputWidth 8 3) (cprod (value <$> Sample.main_in)).1
       ∧ imag r = wrap (OutputWidth 8 3) (cprod (value <$> Sample.main_in)).2.
Proof.
  apply (result_is_wrapped_product 8 3 4 Sample.main_in (make _ 0 0)).
  - lia.
  - vm_compute. lia.
  - reflexivity.
Defined.

(** ** Further properties of the program *)

Lemma cmul_comm a b : cmul a b = cmul b a.
Proof. destruct a, b. unfold cmul. simpl. f_equal; ring. Qed.

Lemma cprod_cons a l : cprod (a :: l) = cmul a (cprod l).
Proof. reflexivity. Qed.

Lemma cprod_Permutation l1 l2 : l1 ≡ₚ l2 → cprod l1 = cprod l2.
Proof.
  induction 1 as [|x l1 l2 _ IH|x y l|l1 l2 l3 _ IH1 _ IH2].
  - reflexivity.
  - rewrite !cprod_cons, IH. reflexivity.
  - rewrite !cprod_cons, <- !cmul_assoc, (cmul_comm y x). reflexivity.
  - congruence.
Qed.

Lemma value_inj {W} (a b : ac_complex W) : value a = value b → a = b.
Proof. destruct a, b. unfold value. simpl. congruence. Qed.

Lemma fits_mono W W' z : 1 ≤ W ≤ W' → fits W z → fits W' z.
Proof.
  unfold fits. intros HW Hz.
  assert (2 ^ (W - 1) ≤ 2 ^ (W' - 1)) by (apply Z.pow_le_mono_r; lia).
  lia.
Qed.

Lemma Forall_products_of {A} `{Inhabited A} (mult : A → A → A)
    (P Q : A → Prop) (w : list A) (pairs : nat) :
  (∀ a b, P a → P b → Q (mult a b)) →
  Forall P w → (2 * pairs ≤ length w)%nat →
  Forall Q (products_of mult w pairs).
Proof.
  intros Hmult Hw. induction pairs as [|p IH]; intros Hlen.
  - constructor.
  - rewrite products_of_S. apply Forall_app. split; [apply IH; lia|].
    destruct (lookup_lt_is_Some_2 w (2 * p)%nat) as [a Ha]; [lia|].
    destruct (lookup_lt_is_Some_2 w (2 * p + 1)%nat) as [b Hb]; [lia|].
    rewrite (list_lookup_total_correct _ _ _ Ha).
    rewrite (list_lookup_total_correct _ _ _ Hb).
    repeat constructor.
    apply Hmult; eapply Forall_lookup_1; eassumption.
Qed.

Lemma Unroller_step_Ok_inv {S} depth Begin End
    (action : Z → S → result S) st r :
  Unroller.step depth Begin End action st = Ok r →
  Begin ≤ End ∧ (Z.to_nat (End - Begin) < depth)%nat.
Proof.
  revert Begin st.
  induction depth as [|d IH]; intros Begin st; simpl; [discriminate|].
  destruct (Z.eqb_spec Begin End) as [->|Hne]; [intros _; lia|].
  destruct (action Begin st) as [st'|f]; simpl; [|discriminate].
  intros Hstep. apply IH in Hstep. lia.
Qed.

Lemma OutputWidth_ge InputWidth NumInputsLog2 :
  1 ≤ InputWidth → 0 ≤ NumInputsLog2 →
  InputWidth ≤ OutputWidth InputWidth NumInputsLog2.
Proof. unfold OutputWidth, BitWidthAtLayer. nia. Qed.

Lemma cprod_zero l : (0, 0) ∈ l → cprod l = (0, 0).
Proof.
  induction l as [|a l IH]; intros Hin; [inversion Hin|].
  rewrite cprod_cons. apply elem_of_cons in Hin as [<-|Hin].
  - destruct (cprod l). unfold cmul. simpl. f_equal; ring.
  - rewrite IH by assumption. destruct a. unfold cmul. simpl. f_equal; ring.
Qed.

Lemma wrap_zero W : wrap W 0 = 0.
Proof.
  destruct (Z_le_gt_dec 1 W) as [HW|HW].
  - apply wrap_id; [assumption|]. unfold fits.
    pose proof (pow2_half_pos W HW). lia.
  - unfold wrap. rewrite (Z.pow_neg_r 2 (W - 1)) by lia.
    rewrite Z.add_0_l, Zmod_0_l. reflexivity.
Qed.

(** X1.  The type that [operator*] returns is exactly wide enough: the
    product of two complex numbers with [w]-bit parts has parts of
    [OutputWidthOfMul w] bits, and one bit less does not hold the square of
    [(-2^(w-1), -2^(w-1))]. *)
Theorem product_width_sufficient_and_tight (w : Z) (a b : ac_complex w) :
  1 ≤ w → cfits w (value a) → cfits w (value b) →
  cfits (OutputWidthOfMul w) (value (mul a b))
  ∧ ∃ c : ac_complex w,
      cfits w (value c) ∧ ¬ cfits (OutputWidthOfMul w - 1) (value (mul c c)).
Proof.
  intros Hw Ha Hb. split.
  - apply (mul_fits w (value a) (value b)); assumption.
  - pose proof (pow2_half_pos w Hw) as Hp.
    exists (Cplx w (- 2 ^ (w - 1)) (- 2 ^ (w - 1))). split.
    + unfold cfits, fits, value. simpl. lia.
    + unfold cfits, fits, value, mul, OutputWidthOfMul. simpl.
      replace (w * 2 + 1 - 1 - 1) with ((w - 1) + (w - 1) + 1) by lia.
      rewrite !Z.pow_add_r by lia. change (2 ^ 1) with 2.
      set (h := 2 ^ (w - 1)) in *. nia.
Qed.

Lemma product_width_sufficient_and_tight_witness :
  cfits (OutputWidthOfMul 8) (value (mul (make 8 (-128) 127) (make 8 127 (-128))))
  ∧ ∃ c : ac_complex 8,
      cfits 8 (value c) ∧ ¬ cfits (OutputWidthOfMul 8 - 1) (value (mul c c)).
Proof.
  apply (product_width_sufficient_and_tight 8
           (make 8 (-128) 127) (make 8 127 (-128))).
  - lia.
  - vm_compute. intuition discriminate.
  - vm_compute. intuition discriminate.
Defined.

(** X2.  Unrolling a range is unrolling its two halves one after the
    other: for [Begin ≤ Mid ≤ End], [Unroller<Begin, End>] behaves as
    [Unroller<Begin, Mid>] followed by [Unroller<Mid, End>]. *)
Theorem Unroller_step_compose {S : Type} (depth : nat) (Begin Mid End : Z)
    (action : Z → S → result S) (st : S) :
  Begin ≤ Mid ≤ End →
  (Z.to_nat (End - Begin) < depth)%nat →
  Unroller.step depth Begin End action st
  = do st' <- Unroller.step depth Begin Mid action st;
    Unroller.step depth Mid End action st'.
Proof.
  intros Hm Hd. rewrite !Unroller_step_foldM by lia.
  replace (End - Begin) with ((Mid - Begin) + (End - Mid)) by lia.
  rewrite seqZ_app, foldM_app by lia.
  destruct (foldM action (seqZ Begin (Mid - Begin)) st) as [st'|f];
    [|reflexivity].
  rewrite !bind_Ok, Unroller_step_foldM by lia.
  do 2 f_equal; lia.
Qed.

Lemma Unroller_step_compose_witness :
  Unroller.step 6 0 5 Unroller.record_index []
  = do st' <- Unroller.step 6 0 2 Unroller.record_index [];
    Unroller.step 6 2 5 Unroller.record_index st'.
Proof.
  apply (Unroller_step_compose 6 0 2 5 Unroller.record_index []);
    [lia | vm_compute; lia].
Defined.

(** X3.  [Unroller<Begin, End>::step] completes exactly when the range is
    not reversed and the compiler allows [End - Begin + 1] nested
    instantiations; the calls are then those of the range. *)
Theorem Unroller_completes_iff (depth : nat) (Begin End : Z) (calls : list Z) :
  Unroller.step depth Begin End Unroller.record_index [] = Ok calls
  ↔ Begin ≤ End
    ∧ (Z.to_nat (End - Begin) < depth)%nat
    ∧ calls = seqZ Begin (End - Begin).
Proof.
  split.
  - intros Hstep.
    destruct (Unroller_step_Ok_inv _ _ _ _ _ _ Hstep) as [Hle Hd].
    rewrite Unroller_step_foldM, foldM_record_index in Hstep by assumption.
    simpl in Hstep. split; [assumption|]. split; [assumption|]. congruence.
  - intros (Hle & Hd & ->).
    rewrite Unroller_step_foldM by assumption. apply foldM_record_index.
Qed.

(** X4.  The result does not depend on the order of the inputs: complex
    multiplication is commutative and wrap-around is compatible with it, so
    two batches that are permutations of each other give the same value. *)
Theorem reduction_order_irrelevant InputWidth NumInputsLog2 depth
    (in1 in2 : list (InputT InputWidth))
    (out : OutputT InputWidth NumInputsLog2) :
  0 ≤ NumInputsLog2 →
  (Z.to_nat NumInputsLog2 < depth)%nat →
  Z.of_nat (length in1) = NumInputs NumInputsLog2 →
  in1 ≡ₚ in2 →
  ∃ r, test_mult InputWidth NumInputsLog2 depth in1 out = Ok r
     ∧ test_mult InputWidth NumInputsLog2 depth in2 out = Ok r.
Proof.
  intros HK Hd Hlen Hperm.
  assert (Hlen2 : Z.of_nat (length in2) = NumInputs NumInputsLog2)
    by (rewrite <- Hlen, (Permutation_length Hperm); reflexivity).
  destruct (kernel_value InputWidth NumInputsLog2 HK depth in1 Hlen Hd)
    as (r1 & Hk1 & Hv1 & _).
  destruct (kernel_value InputWidth NumInputsLog2 HK depth in2 Hlen2 Hd)
    as (r2 & Hk2 & Hv2 & _).
  exists r1. rewrite !test_mult_kernel by assumption.
  split; [assumption|]. rewrite Hk2. f_equal. apply value_inj.
  rewrite Hv1, Hv2. f_equal. apply cprod_Permutation.
  apply fmap_Permutation. symmetry. exact Hperm.
Qed.

Lemma reduction_order_irrelevant_witness :
  ∃ r, test_mult 8 3 4 Sample.main_in (make _ 0 0) = Ok r
     ∧ test_mult 8 3 4 (reverse Sample.main_in) (make _ 0 0) = Ok r.
Proof.
  apply (reduction_order_irrelevant 8 3 4 Sample.main_in
           (reverse Sample.main_in) (make _ 0 0)).
  - lia.
  - vm_compute. lia.
  - reflexivity.
  - symmetry. apply reverse_Permutation.
Defined.

(** X5.  A batch that contains a zero gives zero. *)
Theorem zero_input_gives_zero InputWidth NumInputsLog2 depth
    (in_ : list (InputT InputWidth)) (out : OutputT InputWidth NumInputsLog2) :
  0 ≤ NumInputsLog2 →
  (Z.to_nat NumInputsLog2 < depth)%nat →
  Z.of_nat (length in_) = NumInputs NumInputsLog2 →
  Cplx InputWidth 0 0 ∈ in_ →
  test_mult InputWidth NumInputsLog2 depth in_ out
  = Ok (Cplx (OutputWidth InputWidth NumInputsLog2) 0 0).
Proof.
  intros HK Hd Hlen Hin.
  destruct (kernel_value InputWidth NumInputsLog2 HK depth in_ Hlen Hd)
    as (r & Hk & Hv & _).
  rewrite test_mult_kernel, Hk by assumption. f_equal. apply value_inj.
  rewrite Hv, cprod_zero.
  - unfold cwrap, value. simpl. rewrite wrap_zero. reflexivity.
  - apply (list_elem_of_fmap_2 value) in Hin. exact Hin.
Qed.

Lemma zero_input_gives_zero_witness :
  test_mult 8 3 4 (<[5%nat := Cplx 8 0 0]> Sample.main_in) (make _ 0 0)
  = Ok (Cplx (OutputWidth 8 3) 0 0).
Proof.
  apply (zero_input_gives_zero 8 3 4 (<[5%nat := Cplx 8 0 0]> Sample.main_in)
           (make _ 0 0)).
  - lia.
  - vm_compute. lia.
  - reflexivity.
  - vm_compute. do 5 apply list_elem_of_further. apply list_elem_of_here.
Defined.

(** X6.  Wrap-arounds inside the tree do no harm by themselves: the value
    returned is the exact product of the inputs exactly when that product
    fits the parts of [OutputT]. *)
Theorem result_exact_iff_product_fits InputWidth NumInputsLog2 depth
    (in_ : list (InputT InputWidth)) (out : OutputT InputWidth NumInputsLog2) :
  1 ≤ InputWidth →
  0 ≤ NumInputsLog2 →
  (Z.to_nat NumInputsLog2 < depth)%nat →
  Z.of_nat (length in_) = NumInputs NumInputsLog2 →
  ∃ r, test_mult InputWidth NumInputsLog2 depth in_ out = Ok r
     ∧ (value r = cprod (value <$> in_)
        ↔ cfits (OutputWidth InputWidth NumInputsLog2)
            (cprod (value <$> in_))).
Proof.
  intros HW HK Hd Hlen.
  destruct (kernel_value InputWidth NumInputsLog2 HK depth in_ Hlen Hd)
    as (r & Hk & Hv & _).
  exists r. split; [rewrite test_mult_kernel; assumption|].
  pose proof (OutputWidth_ge InputWidth NumInputsLog2 HW HK) as HOW.
  rewrite Hv. split.
  - intros <-. unfold cfits, cwrap. simpl. split; apply wrap_fits; lia.
  - apply cwrap_id_any.
Qed.

Lemma result_exact_iff_product_fits_witness :
  ∃ r, test_mult 8 3 4 Sample.main_in (make _ 0 0) = Ok r
     ∧ (value r = cprod (value <$> Sample.main_in)
        ↔ cfits (OutputWidth 8 3) (cprod (value <$> Sample.main_in))).
Proof.
  apply (result_exact_iff_product_fits 8 3 4 Sample.main_in (make _ 0 0)).
  - lia.
  - lia.
  - vm_compute. lia.
  - reflexivity.
Defined.

(** X7.  With two inputs (one layer) the design is lossless: for every pair
    of inputs with [InputWidth]-bit parts, [test_mult] returns their exact
    product. *)
Theorem two_inputs_lossless InputWidth depth (a b : InputT InputWidth)
    (out : OutputT InputWidth 1) :
  1 ≤ InputWidth →
  (1 < depth)%nat →
  cfits InputWidth (value a) →
  cfits InputWidth (value b) →
  ∃ r, test_mult InputWidth 1 depth [a; b] out = Ok r
     ∧ value r = cmul (value a) (value b).
Proof.
  intros HW Hd Ha Hb.
  destruct (kernel_value InputWidth 1 ltac:(lia) depth [a; b]
              ltac:(reflexivity) ltac:(simpl; lia))
    as (r & Hk & Hv & _).
  exists r. split; [rewrite test_mult_kernel by reflexivity; assumption|].
  rewrite Hv. cbn [fmap list_fmap]. rewrite !cprod_cons.
  change (cprod []) with cone. rewrite cmul_one_r.
  apply cwrap_id_any.
  replace (OutputWidth InputWidth 1) with (OutputWidthOfMul InputWidth)
    by (unfold OutputWidth, BitWidthAtLayer, OutputWidthOfMul; ring).
  apply mul_fits; assumption.
Qed.

Lemma two_inputs_lossless_witness :
  ∃ r, test_mult 8 1 2 [make 8 (-128) (-128); make 8 (-128) (-128)]
         (make _ 0 0) = Ok r
     ∧ value r = cmul (value (make 8 (-128) (-128)))
                      (value (make 8 (-128) (-128))).
Proof.
  apply (two_inputs_lossless 8 2 (make 8 (-128) (-128))
           (make 8 (-128) (-128)) (make _ 0 0)).
  - lia.
  - lia.
  - vm_compute. intuition discriminate.
  - vm_compute. intuition discriminate.
Defined.

(** X8.  The copy loop is lossless and keeps the order: inputs with
    [InputWidth]-bit parts are stored in [prevBuffer] with their values
    unchanged, since [OutputT] is at least as wide as [InputT]. *)
Theorem copy_loop_lossless InputWidth NumInputsLog2
    (x : list (InputT InputWidth)) :
  1 ≤ InputWidth →
  0 ≤ NumInputsLog2 →
  Z.of_nat (length x) = NumInputs NumInputsLog2 →
  Forall (λ c, cfits InputWidth (value c)) x →
  ∃ prevBuffer : list (OutputT InputWidth NumInputsLog2),
    for_range 0 (NumInputs NumInputsLog2)
      (copy_step InputWidth NumInputsLog2 x)
      (replicate (Z.to_nat (NumInputs NumInputsLog2))
         (Cplx (OutputWidth InputWidth NumInputsLog2) 0 0))
    = Ok prevBuffer
    ∧ value <$> prevBuffer = value <$> x.
Proof.
  intros HW HK Hlen Hfits.
  pose proof (OutputWidth_ge InputWidth NumInputsLog2 HW HK) as HOW.
  exists (convert (OutputWidth InputWidth NumInputsLog2) <$> x). split.
  - rewrite <- Hlen at 1.
    rewrite copy_loop; [|lia|rewrite length_replicate; lia].
    rewrite firstn_all, drop_ge, app_nil_r
      by (rewrite length_replicate; lia).
    reflexivity.
  - rewrite <- list_fmap_compose. apply Forall_fmap_ext_1.
    eapply Forall_impl; [|exact Hfits].
    intros c [Hre Him]. unfold compose, value, convert. simpl in *.
    rewrite !wrap_id_any; [reflexivity| |];
      apply (fits_mono InputWidth); (lia || assumption).
Qed.

Lemma copy_loop_lossless_witness :
  ∃ prevBuffer : list (OutputT 8 3),
    for_range 0 (NumInputs 3) (copy_step 8 3 Sample.main_in)
      (replicate (Z.to_nat (NumInputs 3)) (Cplx (OutputWidth 8 3) 0 0))
    = Ok prevBuffer
    ∧ value <$> prevBuffer = value <$> Sample.main_in.
Proof.
  apply (copy_loop_lossless 8 3 Sample.main_in).
  - lia.
  - lia.
  - reflexivity.
  - repeat constructor; vm_compute; discriminate.
Defined.



Lemma rule_width_pos (w : Z) (l : nat) :
  1 ≤ w → 1 ≤ Nat.iter l OutputWidthOfMul w.
Proof.
  intros Hw. induction l as [|l IH]; [assumption|].
  rewrite Nat.iter_succ.
  set (v := Nat.iter l OutputWidthOfMul w) in *.
  unfold OutputWidthOfMul. lia.
Qed.

Lemma iter_OutputWidthOfMul (w : Z) (l : nat) :
  Nat.iter l OutputWidthOfMul w = 2 ^ Z.of_nat l * (w + 1) - 1.
Proof.
  induction l as [|l IH]; [cbn; lia|].
  rewrite Nat.iter_succ, IH.
  rewrite Nat2Z.inj_succ, Z.pow_succ_r by lia.
  unfold OutputWidthOfMul. ring.
Qed.

(** With the widths of the rule, every value of every layer fits. *)
Lemma exact_layer_fits_rule InputWidth NumInputsLog2
    (inputs : list (Z * Z)) (l : nat) :
  1 ≤ InputWidth →
  0 ≤ NumInputsLog2 →
  Z.of_nat (length inputs) = NumInputs NumInputsLog2 →
  Z.of_nat l ≤ NumInputsLog2 →
  Forall (cfits InputWidth) inputs →
  Forall (cfits (Nat.iter l OutputWidthOfMul InputWidth))
    (exact_layer NumInputsLog2 l inputs).
Proof.
  intros HW HK Hlen Hl Hfits. rewrite NumInputs_pow in Hlen.
  induction l as [|l IH]; [exact Hfits|].
  cbn [exact_layer]. rewrite Nat.iter_succ.
  apply (Forall_products_of cmul
           (cfits (Nat.iter l OutputWidthOfMul InputWidth))).
  - intros a b. apply mul_fits, rule_width_pos. assumption.
  - apply IH. lia.
  - rewrite (length_exact_layer NumInputsLog2 HK inputs l Hlen) by lia.
    rewrite (two_pairs_at NumInputsLog2 HK l) by lia. lia.
Qed.

(** When the instantiation depth is too small, the Unroller runs the
    actions it could expand and then fails. *)
Lemma Unroller_step_short {S} depth Begin End
    (action : Z → S → result S) st :
  (depth ≤ Z.to_nat (End - Begin))%nat →
  Unroller.step depth Begin End action st
  = do _ <- foldM action (seqZ Begin (Z.of_nat depth)) st;
    Fault DepthExceeded.
Proof.
  revert Begin st.
  induction depth as [|d IH]; intros Begin st Hd; [reflexivity|].
  cbn [Unroller.step].
  destruct (Z.eqb_spec Begin End) as [->|Hne]; [lia|].
  rewrite seqZ_cons by lia. cbn [foldM].
  destruct (action Begin st) as [st'|f]; [|reflexivity].
  rewrite !bind_Ok, IH by lia. do 3 f_equal; lia.
Qed.

Lemma pow2_gt_succ (l : nat) : (2 ≤ l)%nat → Z.of_nat l + 1 < 2 ^ Z.of_nat l.
Proof.
  induction l as [|l IH]; intros Hl; [lia|].
  destruct (decide (l = 1%nat)) as [->|Hne]; [reflexivity|].
  rewrite Nat2Z.inj_succ, Z.pow_succ_r by lia.
  specialize (IH ltac:(lia)). lia.
Qed.



(** X10.  The rule "width x gives width 2x+1", applied [l] times to
    [InputWidth], gives [2^l * (InputWidth + 1) - 1] bits; [BitWidthAtLayer]
    agrees with it at the layers 0 and 1 only, and falls short by
    [(2^l - l - 1) * (InputWidth + 1)] bits at layer [l]. *)
Theorem rule_width_closed_form (InputWidth : Z) (l : nat) :
  0 ≤ InputWidth →
  Nat.iter l OutputWidthOfMul InputWidth
  = 2 ^ Z.of_nat l * (InputWidth + 1) - 1
  ∧ Nat.iter l OutputWidthOfMul InputWidth
    - BitWidthAtLayer InputWidth (Z.of_nat l)
    = (2 ^ Z.of_nat l - Z.of_nat l - 1) * (InputWidth + 1)
  ∧ (BitWidthAtLayer InputWidth (Z.of_nat l)
     = Nat.iter l OutputWidthOfMul InputWidth ↔ (l ≤ 1)%nat).
Proof.
  intros HW. pose proof (iter_OutputWidthOfMul InputWidth l) as Hiter.
  split; [exact Hiter|]. rewrite Hiter. unfold BitWidthAtLayer.
  split; [ring|]. split.
  - intros Heq. destruct (decide (l ≤ 1)%nat) as [|Hgt]; [assumption|].
    pose proof (pow2_gt_succ l ltac:(lia)). nia.
  - intros Hl. destruct l as [|[|l]]; [cbn; lia|cbn; lia|lia].
Qed.

Lemma rule_width_closed_form_witness :
  Nat.iter 3 OutputWidthOfMul 8 = 2 ^ Z.of_nat 3 * (8 + 1) - 1
  ∧ Nat.iter 3 OutputWidthOfMul 8 - BitWidthAtLayer 8 (Z.of_nat 3)
    = (2 ^ Z.of_nat 3 - Z.of_nat 3 - 1) * (8 + 1)
  ∧ (BitWidthAtLayer 8 (Z.of_nat 3) = Nat.iter 3 OutputWidthOfMul 8
     ↔ (3 ≤ 1)%nat).
Proof. apply (rule_width_closed_form 8 3). lia. Defined.

(** X11.  [check_result] accepts exactly when the two values are equal. *)
Theorem check_result_true_iff InputWidth NumInputsLog2
    (expected found : OutputT InputWidth NumInputsLog2) :
  check_result InputWidth NumInputsLog2 expected found = true
  ↔ expected = found.
Proof.
  unfold check_result, neq. destruct expected as [er ei], found as [fr fi].
  simpl.
  destruct (Z.eqb_spec er fr) as [->|Hr], (Z.eqb_spec ei fi) as [->|Hi];
    simpl; split; intros H; congruence.
Qed.

(** X12.  Had each layer the width that the rule [OutputWidthOfMul] gives
    from the previous one, no value of the tree would overflow: for inputs
    with [InputWidth]-bit parts, every value of layer [l] fits
    [OutputWidthOfMul] applied [l] times to [InputWidth]. *)
Theorem rule_widths_lossless InputWidth NumInputsLog2
    (inputs : list (Z * Z)) (l : nat) :
  1 ≤ InputWidth →
  0 ≤ NumInputsLog2 →
  Z.of_nat (length inputs) = NumInputs NumInputsLog2 →
  Z.of_nat l ≤ NumInputsLog2 →
  Forall (cfits InputWidth) inputs →
  Forall (cfits (Nat.iter l OutputWidthOfMul InputWidth))
    (exact_layer NumInputsLog2 l inputs).
Proof. apply exact_layer_fits_rule. Qed.

Lemma rule_widths_lossless_witness :
  Forall (cfits (Nat.iter 3 OutputWidthOfMul 8))
    (exact_layer 3 3 (value <$> Sample.extreme_in)).
Proof.
  apply (rule_widths_lossless 8 3 (value <$> Sample.extreme_in) 3).
  - lia.
  - lia.
  - reflexivity.
  - lia.
  - repeat constructor; vm_compute; discriminate.
Defined.

(** X13.  Keeping every layer in [OutputT] hides the narrow layer widths
    for the early layers: for inputs with [InputWidth]-bit parts and every
    layer [l] with [2^l ≤ NumInputsLog2 + 1], the live elements of the
    buffer after [l] layers are the exact values of the tree. *)
Theorem early_layers_exact InputWidth NumInputsLog2
    (in_ : list (InputT InputWidth)) (l : nat) :
  1 ≤ InputWidth →
  0 ≤ NumInputsLog2 →
  Z.of_nat (length in_) = NumInputs NumInputsLog2 →
  Z.of_nat l ≤ NumInputsLog2 →
  2 ^ Z.of_nat l ≤ NumInputsLog2 + 1 →
  Forall (λ c, cfits InputWidth (value c)) in_ →
  ∃ prevBuffer : list (OutputT InputWidth NumInputsLog2),
    foldM (layer_action InputWidth NumInputsLog2) (seqZ 0 (Z.of_nat l))
      (convert (OutputWidth InputWidth NumInputsLog2) <$> in_)
    = Ok prevBuffer
    ∧ value <$> take (Z.to_nat (ElementsInLayer NumInputsLog2 (Z.of_nat l)))
                  prevBuffer
      = exact_layer NumInputsLog2 l (value <$> in_).
Proof.
  intros HW HK Hlen Hl Hpow Hfits.
  destruct (layers_in_place InputWidth NumInputsLog2 HK in_ l Hlen Hl)
    as (buf & Hrun & _ & Htake).
  exists buf. split; [exact Hrun|].
  rewrite ElementsInLayer_pow, Htake by lia.
  rewrite value_WorkingArray
    by (try assumption; rewrite <- NumInputs_pow; exact Hlen).
  assert (Hex : Forall (cfits (Nat.iter l OutputWidthOfMul InputWidth))
                  (exact_layer NumInputsLog2 l (value <$> in_))).
  { apply exact_layer_fits_rule; try assumption.
    - rewrite length_fmap. exact Hlen.
    - apply Forall_fmap. exact Hfits. }
  pose proof (rule_width_pos InputWidth l HW) as Hpos.
  assert (Hle : Nat.iter l OutputWidthOfMul InputWidth
                ≤ OutputWidth InputWidth NumInputsLog2).
  { rewrite iter_OutputWidthOfMul. unfold OutputWidth, BitWidthAtLayer. nia. }
  rewrite <- (list_fmap_id (exact_layer _ _ _)) at 2.
  apply Forall_fmap_ext_1. eapply Forall_impl; [|exact Hex].
  intros [re im] [Hre Him]. apply cwrap_id_any.
  split; eapply fits_mono; eauto.
Qed.

Lemma early_layers_exact_witness :
  ∃ prevBuffer : list (OutputT 8 3),
    foldM (layer_action 8 3) (seqZ 0 (Z.of_nat 2))
      (convert (OutputWidth 8 3) <$> Sample.extreme_in)
    = Ok prevBuffer
    ∧ value <$> take (Z.to_nat (ElementsInLayer 3 (Z.of_nat 2))) prevBuffer
      = exact_layer 3 2 (value <$> Sample.extreme_in).
Proof.
  apply (early_layers_exact 8 3 Sample.extreme_in 2).
  - lia.
  - lia.
  - reflexivity.
  - lia.
  - vm_compute. discriminate.
  - repeat constructor; vm_compute; discriminate.
Defined.

(** X14.  [test_mult] never indexes [prevBuffer] or the input accessor out
    of bounds, whatever the input vector; it completes exactly when the
    vector has [NumInputs] elements and the Unroller can be expanded. *)
Theorem test_mult_memory_safe InputWidth NumInputsLog2 depth
    (in_ : list (InputT InputWidth)) (out : OutputT InputWidth NumInputsLog2) :
  0 ≤ NumInputsLog2 →
  test_mult InputWidth NumInputsLog2 depth in_ out ≠ Fault OutOfBounds
  ∧ ((∃ r, test_mult InputWidth NumInputsLog2 depth in_ out = Ok r)
     ↔ Z.of_nat (length in_) = NumInputs NumInputsLog2
       ∧ (Z.to_nat NumInputsLog2 < depth)%nat).
Proof.
  intros HK.
  destruct (Z.eq_dec (Z.of_nat (length in_)) (NumInputs NumInputsLog2))
    as [Hlen|Hlen].
  - rewrite test_mult_kernel by assumption.
    destruct (le_lt_dec depth (Z.to_nat NumInputsLog2)) as [Hd|Hd].
    + assert (Hk : kernel InputWidth NumInputsLog2 depth in_
                   = Fault DepthExceeded).
      { unfold kernel. rewrite <- Hlen at 1.
        rewrite copy_loop; [|lia|rewrite length_replicate; lia].
        rewrite bind_Ok, firstn_all, drop_ge, app_nil_r
          by (rewrite length_replicate; lia).
        rewrite Unroller_step_short by (rewrite Z.sub_0_r; exact Hd).
        destruct (layers_in_place InputWidth NumInputsLog2 HK in_ depth Hlen)
          as (buf & Hrun & _); [lia|].
        rewrite Hrun. reflexivity. }
      rewrite Hk. split; [discriminate|].
      split; [intros [r Hr]; discriminate|intros [_ ?]; lia].
    + destruct (kernel_two_array InputWidth NumInputsLog2 HK depth in_ Hlen Hd)
        as (r & Hk & _).
      rewrite Hk. split; [discriminate|]. split; [auto|eauto].
  - unfold test_mult.
    destruct (Z.eqb_spec (Z.of_nat (length in_)) (NumInputs NumInputsLog2));
      [contradiction|].
    simpl. split; [discriminate|].
    split; [intros [r Hr]; discriminate|intros [? _]; contradiction].
Qed.

Lemma test_mult_memory_safe_witness :
  test_mult 8 3 2 Sample.main_in (make _ 0 0) ≠ Fault OutOfBounds
  ∧ ((∃ r, test_mult 8 3 2 Sample.main_in (make _ 0 0) = Ok r)
     ↔ Z.of_nat (length Sample.main_in) = NumInputs 3
       ∧ (Z.to_nat 3 < 2)%nat).
Proof.
  apply (test_mult_memory_safe 8 3 2 Sample.main_in (make _ 0 0)). lia.
Defined.
